(** * Housing Policy Compass: the recommendation engine of appV3.py / appV4.py

    The two Streamlit scripts embed the same three functions
    ([normalize_inputs], [determine_buckets], [apply_priority_overlay]) and
    the same button handler, up to the text of one warning.  The functions
    work on Python strings, lists of strings and one [set] of strings; they
    are embedded here on [string], [list string] and [gset string]. *)

From stdpp Require Import gmap strings list sorting.

#[local] Set Warnings "-clear-no-such-hyp".

(** ** Python primitives used by the engine *)

(** [s.startswith(p)], the helper of the substring test below. *)
Fixpoint str_startswith (p s : string) : bool :=
  match p, s with
  | EmptyString, _ => true
  | String _ _, EmptyString => false
  | String a p', String b s' => bool_decide (a = b) && str_startswith p' s'
  end.

(** [needle in hay] on two Python strings: [needle] occurs at some offset of
    [hay].  Strings are byte sequences here; for the ASCII keywords of the
    source, containment in the UTF-8 bytes and in the code points agree. *)
Fixpoint str_in (needle hay : string) : bool :=
  str_startswith needle hay ||
  match hay with
  | EmptyString => false
  | String _ hay' => str_in needle hay'
  end.

(** What [needle in hay] means: [hay] is [pre + needle + post]. *)
Definition Substring (needle hay : string) : Prop :=
  ∃ pre post, hay = pre +:+ needle +:+ post.

(** [x in l] on a Python list. *)
Definition list_in (x : string) (l : list string) : bool := bool_decide (x ∈ l).

(** A Python [set] of strings is a [gset string].  [s.add(x)] and
    [s.update(l)] return the updated set. *)
Definition set_add (x : string) (s : gset string) : gset string := s ∪ {[ x ]}.
Definition set_update (l : list string) (s : gset string) : gset string :=
  s ∪ list_to_set l.
Definition set_in (x : string) (s : gset string) : bool := bool_decide (x ∈ s).

(** Iterating over a Python [set] of strings visits its elements once each,
    in an order fixed by the string hashes of the running process (they are
    salted per process).  [HashOrder] is that hidden order: any enumeration
    of the elements of every set. *)
Record HashOrder := {
  set_iter : gset string → list string;
  set_iter_perm : ∀ s, set_iter s ≡ₚ elements s
}.

(** [sorted(it)] on strings: ascending by [<=] on strings (byte-wise
    lexicographic, which is the code point order on UTF-8). *)
Definition sorted (l : list string) : list string := merge_sort String.le l.

(** [sep.join(l)]. *)
Fixpoint str_join (sep : string) (l : list string) : string :=
  match l with
  | [] => ""
  | [x] => x
  | x :: l' => x +:+ sep +:+ str_join sep l'
  end.

(** ** Category labels *)

Definition FB : string := "Foundation-Building (FB)".
Definition PS : string := "Preservation & Stabilization (PS)".
Definition RS : string := "Regulatory Supply (RS)".
Definition DI : string := "Development Incentives (DI)".
Definition FA : string := "Financial Assistance (FA)".
Definition TP : string := "Tenant Protections (TP)".

Definition base_order : list string := [FB; PS; RS; DI; FA; TP].

Definition note_minimal : string :=
  "Minimal capacity: prioritize low-cost/no-cost foundation-building activities.".
Definition note_weak : string :=
  "Weak market: prioritize foundation-building; add preservation if capacity and quality risk exist.".
Definition note_core : string := "Recommendation generated using core logic.".

(** ** The engine *)

(** [normalize_inputs(authority, capacity, market, challenge)]. *)
Definition normalize_inputs (authority capacity market challenge : string)
  : string * string * string * string :=
  let a := if str_in "Unsure" authority then "Unsure"
           else if str_in "Limited" authority then "Limited" else "Strong" in
  let c := if str_in "Minimal" capacity then "Minimal"
           else if str_in "Moderate" capacity then "Moderate" else "Strong" in
  let m := if str_in "Weak" market then "Weak"
           else if str_in "Stable" market then "Stable" else "Hot" in
  let ch := if str_in "Multiple" challenge then "Multiple"
            else if str_in "Quality" challenge then "Quality"
            else if str_in "Affordability" challenge then "Affordability"
            else "Supply" in
  (a, c, m, ch).

(** The four [if challenge == ...] blocks of the general case, one after the
    other on the same set. *)
Definition supply_rules (authority challenge : string) (buckets : gset string)
  : gset string :=
  let limited_authority := bool_decide (authority = "Limited") in
  if bool_decide (challenge = "Supply") then
    if limited_authority then set_add DI buckets
    else set_update [RS; DI] buckets
  else buckets.

Definition affordability_rules (authority challenge : string)
    (buckets : gset string) : gset string :=
  let limited_authority := bool_decide (authority = "Limited") in
  if bool_decide (challenge = "Affordability") then
    let buckets := set_add FA buckets in
    let buckets :=
      if bool_decide (authority = "Strong") then set_add TP buckets else buckets in
    let buckets :=
      if negb limited_authority then set_add RS buckets else buckets in
    set_add DI buckets
  else buckets.

Definition quality_rules (authority challenge : string) (buckets : gset string)
  : gset string :=
  if bool_decide (challenge = "Quality") then
    let buckets := set_add PS buckets in
    let buckets :=
      if bool_decide (authority = "Strong") then set_add RS buckets else buckets in
    set_add DI buckets
  else buckets.

Definition multiple_rules (authority capacity challenge : string)
    (buckets : gset string) : gset string :=
  if bool_decide (challenge = "Multiple") then
    let buckets :=
      if list_in capacity ["Moderate"; "Strong"] then set_add PS buckets
      else buckets in
    let buckets := set_add FA buckets in
    if bool_decide (authority = "Strong") then set_update [RS; DI; TP] buckets
    else set_add DI buckets
  else buckets.

(** [determine_buckets(authority, capacity, market, challenge)], run in a
    process whose set iteration order is [h]. *)
Definition determine_buckets (h : HashOrder)
    (authority capacity market challenge : string) : list string * string :=
  let buckets : gset string := ∅ in
  if bool_decide (capacity = "Minimal") then ([FB], note_minimal)
  else if bool_decide (market = "Weak") then
    let buckets := set_add FB buckets in
    let buckets :=
      if list_in capacity ["Moderate"; "Strong"]
         && list_in challenge ["Quality"; "Multiple"]
      then set_add PS buckets else buckets in
    (sorted (set_iter h buckets), note_weak)
  else
    let buckets := supply_rules authority challenge buckets in
    let buckets := affordability_rules authority challenge buckets in
    let buckets := quality_rules authority challenge buckets in
    let buckets := multiple_rules authority capacity challenge buckets in
    let ordered := filter (λ b, b ∈ buckets) base_order in
    (ordered, note_core).

(** One of the two loops
    [for x in xs: if x not in final_order: final_order.append(x)]. *)
Definition append_new (final_order xs : list string) : list string :=
  foldl (λ fo x, if list_in x fo then fo else fo ++ [x]) final_order xs.

(** The priority list built by the [if]/[elif] on the challenge code. *)
Definition priority_of (challenge_code : string) (bucket_set : gset string)
  : list string :=
  let priority_order : list string := [] in
  if bool_decide (challenge_code = "Affordability") then
    let priority_order :=
      if set_in FA bucket_set then priority_order ++ [FA] else priority_order in
    if set_in TP bucket_set then priority_order ++ [TP] else priority_order
  else if bool_decide (challenge_code = "Supply") then
    let priority_order :=
      if set_in RS bucket_set then priority_order ++ [RS] else priority_order in
    if set_in DI bucket_set then priority_order ++ [DI] else priority_order
  else priority_order.

(** [apply_priority_overlay(challenge_code, buckets)]: returns
    [(final_order, priority_order)]. *)
Definition apply_priority_overlay (challenge_code : string)
    (buckets : list string) : list string * list string :=
  let bucket_set : gset string := list_to_set buckets in
  let priority_order := priority_of challenge_code bucket_set in
  let final_order := append_new [] priority_order in
  let final_order := append_new final_order buckets in
  (final_order, priority_order).

(** ** The closed enumerations of the normalized codes *)

Module Authority.
Inductive t := Strong | Limited | Unsure.
Definition code (a : t) : string :=
  match a with Strong => "Strong" | Limited => "Limited" | Unsure => "Unsure" end.
Definition all : list t := [Strong; Limited; Unsure].
End Authority.

Module Capacity.
Inductive t := Strong | Moderate | Minimal.
Definition code (c : t) : string :=
  match c with Strong => "Strong" | Moderate => "Moderate" | Minimal => "Minimal" end.
Definition all : list t := [Strong; Moderate; Minimal].
End Capacity.

Module Market.
Inductive t := Hot | Stable | Weak.
Definition code (m : t) : string :=
  match m with Hot => "Hot" | Stable => "Stable" | Weak => "Weak" end.
Definition all : list t := [Hot; Stable; Weak].
End Market.

Module Challenge.
Inductive t := Supply | Affordability | Quality | Multiple.
Definition code (ch : t) : string :=
  match ch with
  | Supply => "Supply" | Affordability => "Affordability"
  | Quality => "Quality" | Multiple => "Multiple"
  end.
Definition all : list t := [Supply; Affordability; Quality; Multiple].
End Challenge.

(** [determine_buckets] followed by [apply_priority_overlay], as the button
    handler chains them: [(final_buckets, priority_list, note)]. *)
Definition recommend (h : HashOrder) (a c m ch : string)
  : list string * list string * string :=
  let '(base_buckets, note) := determine_buckets h a c m ch in
  let '(final_buckets, priority_list) := apply_priority_overlay ch base_buckets in
  (final_buckets, priority_list, note).

(** ** The button handler *)

(** What a run of the handler does that can be seen from outside: the engine
    functions it enters and the Streamlit calls that matter to the flow. *)
Inductive engine_fn := Fn_normalize_inputs | Fn_determine_buckets | Fn_apply_priority_overlay.

Inductive event :=
| Call (f : engine_fn)
| St_warning (msg : string)
| St_stop
| St_success (msg : string).

(** A script run: the events so far, and the value, [None] once [st.stop()]
    has ended the run. *)
Record Script (A : Type) := MkScript { trace : list event; value : option A }.
Arguments MkScript {A} _ _.
Arguments trace {A} _.
Arguments value {A} _.

Global Instance script_ret : MRet Script := λ A x, MkScript [] (Some x).
Global Instance script_bind : MBind Script := λ A B k m,
  match value m with
  | None => MkScript (trace m) None
  | Some x => MkScript (trace m ++ trace (k x)) (value (k x))
  end.

Definition emit (e : event) : Script () := MkScript [e] (Some ()).
Definition st_stop : Script () := MkScript [St_stop] None.

(** The row given to [pd.DataFrame] for the CSV export. *)
Record row := {
  row_authority : string;
  row_capacity : string;
  row_market : string;
  row_challenge : string;
  row_recommendations : string;
  row_priority_order : string;
  row_note : string
}.

(** What a completed run has computed and displayed. *)
Record result := {
  inputs : string * string * string * string;
  final_buckets : list string;
  priority_list : list string;
  remaining : list string;
  note : string;
  df : row
}.

(** The body of [if st.button(...)], with the text of the warning (the one
    difference between the two scripts) as [warning_text].  The display of
    the lists between [st.success] and the export reads the computed values
    only and is kept as the [result]. *)
Definition generate (warning_text : string) (h : HashOrder)
    (authority capacity market challenge : string) : Script result :=
  emit (Call Fn_normalize_inputs);;
  let '(a, c, m, ch) := normalize_inputs authority capacity market challenge in
  (if bool_decide (a = "Unsure")
   then emit (St_warning warning_text);; st_stop
   else mret ());;
  emit (Call Fn_determine_buckets);;
  let '(base_buckets, note) := determine_buckets h a c m ch in
  emit (Call Fn_apply_priority_overlay);;
  let '(final_buckets, priority_list) := apply_priority_overlay ch base_buckets in
  emit (St_success "✅ Policy Recommendation Complete!");;
  let remaining := filter (λ b, b ∉ priority_list) final_buckets in
  mret {| inputs := (a, c, m, ch);
          final_buckets := final_buckets;
          priority_list := priority_list;
          remaining := remaining;
          note := note;
          df := {| row_authority := a; row_capacity := c; row_market := m;
                   row_challenge := ch;
                   row_recommendations := str_join "; " final_buckets;
                   row_priority_order := str_join "; " priority_list;
                   row_note := note |} |}.

Definition warning_v3 : string :=
  "Please check state law before proceeding; your legal authority is unclear.".
Definition warning_v4 : string := "Please check state law before proceeding.".

Definition generate_v3 := generate warning_v3.
Definition generate_v4 := generate warning_v4.

(** Two iteration orders, to run the engine on: the order of [elements] and
    its reverse. *)
Program Definition order_elements : HashOrder :=
  {| set_iter := elements |}.
Next Obligation. done. Qed.

Program Definition order_reversed : HashOrder :=
  {| set_iter := λ s, reverse (elements s) |}.
Next Obligation. intros s. apply reverse_Permutation. Qed.

(** ** The matching policy of the normalizer *)

(** The matching policy in the words of the specification: the keywords are
    tried in order against the raw string, by containment; the first one it
    contains is the code, and the default is the code when it contains
    none. *)
Inductive first_match (raw : string) : list string → string → string → Prop :=
| fm_default default :
    first_match raw [] default default
| fm_hit keyword keywords default :
    Substring keyword raw →
    first_match raw (keyword :: keywords) default keyword
| fm_skip keyword keywords default code :
    ¬ Substring keyword raw →
    first_match raw keywords default code →
    first_match raw (keyword :: keywords) default code.

(** The chain of conditional expressions of [normalize_inputs], for one
    field. *)
Fixpoint classify (keywords : list string) (default raw : string) : string :=
  match keywords with
  | [] => default
  | keyword :: keywords =>
      if str_in keyword raw then keyword else classify keywords default raw
  end.

(** ** Runs of the handler *)

(** The two runs the handler can make. *)
Definition trace_halted (warning_text : string) : list event :=
  [Call Fn_normalize_inputs; St_warning warning_text; St_stop].

Definition trace_completed : list event :=
  [Call Fn_normalize_inputs; Call Fn_determine_buckets;
   Call Fn_apply_priority_overlay;
   St_success "✅ Policy Recommendation Complete!"].

(** ** Enumeration of the normalized tuples *)

(** The 108 tuples of codes, for checking by evaluation. *)
Definition all_tuples : list (string * string * string * string) :=
  a ← Authority.all; c ← Capacity.all; m ← Market.all; ch ← Challenge.all;
  [(Authority.code a, Capacity.code c, Market.code m, Challenge.code ch)].

Definition good_output (t : string * string * string * string) : bool :=
  let '(a, c, m, ch) := t in
  let '(final_buckets, _, _) := recommend order_elements a c m ch in
  bool_decide (final_buckets ≠ [] ∧ NoDup final_buckets).

(** ** The options of the four radio buttons *)

Definition authority_options : list string :=
  ["Strong Local Authority (Home Rule - broad powers; few preemptions)";
   "Limited Local Authority (Dillon Rule - state restricts key areas; significant preemptions)";
   "Unsure"].

Definition capacity_options : list string :=
  ["Strong Capacity (dedicated funding, deep staffing levels)";
   "Moderate Capacity (limited budget, small or inexperienced staff)";
   "Minimal Capacity (near-zero budget, minimal staff)"].

Definition market_options : list string :=
  ["Hot Market"; "Stable Market"; "Weak/Declining Market"].

Definition challenge_options : list string :=
  ["Supply Shortage"; "Affordability Crisis"; "Housing Quality"; "Multiple Crises"].

(** ** The guidance texts *)

Definition guidance_FB : string :=
  "These strategies lay the groundwork for future housing initiatives and strengthen the local housing ecosystem. Examples include zoning code reviews, ADU enabling, manufactured housing code reform, and property tax relief pilots. They are low-cost, easy to implement, and help communities with limited capacity address affordability and quality concerns without requiring extensive funding or staff. Ideal for small towns, weak markets, or minimal capacity scenarios.".

Definition guidance_PS : string :=
  "These tools help maintain and improve the existing housing stock, protecting residents from displacement and preserving affordable units. Examples include community land trusts, acquisition/rehab grants, housing trust funds, and code enforcement/rehab loan programs. Effective in communities with aging housing or moderate funding/staff capacity. They prevent further deterioration and can stabilize neighborhoods, but require upfront capital and ongoing management.".

Definition guidance_RS : string :=
  "Regulatory strategies increase housing supply through zoning and planning changes. Examples: upzoning, inclusionary zoning (if legally allowed), ADU allowances, density bonuses. These tools are most effective in hot or stable markets with development pressure. Constraints include state preemption, potential local opposition, and administrative complexity. They help create long-term housing availability, but poorly designed programs may slow development or trigger NIMBY pushback.".

Definition guidance_DI : string :=
  "Incentive programs encourage private developers to build housing that meets community goals. Examples: fee waivers, expedited permitting, tax abatements, public land disposition, gap financing. Most effective in active development markets where additional subsidies or process speed-ups can overcome cost barriers. These tools can be politically sensitive, require financial resources, and may benefit developers more than residents directly.".

Definition guidance_FA : string :=
  "Direct financial support helps residents afford housing in the short term and reduces displacement. Examples: rental subsidies, down payment assistance, property tax circuit breakers, mortgage assistance. Effective in communities with affordability pressures and moderate or strong fiscal/admin capacity. Trade-offs include ongoing funding commitment and limited reach per program, but they provide immediate relief to households.".

Definition guidance_TP : string :=
  "Legal protections for renters stabilize households and reduce displacement risk. Examples: just-cause eviction, rent stabilization, right to counsel, junk fee limits. Most effective in hot markets with strong tenant organizing or advocacy. Constraints include state preemption in some areas, potential impact on rental supply if overly restrictive, and administrative/enforcement costs. These tools complement financial assistance and preserve housing stability.".

(** The dict [GUIDANCE]. *)
Definition GUIDANCE : gmap string string :=
  list_to_map [(FB, guidance_FB); (PS, guidance_PS); (RS, guidance_RS);
               (DI, guidance_DI); (FA, guidance_FA); (TP, guidance_TP)].

(** [d.get(key, default)]. *)
Definition dict_get (d : gmap string string) (key default : string) : string :=
  match d !! key with Some v => v | None => default end.

(** ** The display of a recommendation *)

(** The Streamlit calls of the handler after [st.success]. *)
Inductive widget :=
| St_markdown (body : string)
| St_subheader (body : string)
| St_caption (body : string)
| St_divider
| St_write (body : string).

(** The bodies of the two [for] loops. *)
Definition show_priority (p : string) : list widget :=
  [St_markdown ("**" +:+ p +:+ "**"); St_caption (dict_get GUIDANCE p "")].

Definition show_remaining (r : string) : list widget :=
  [St_markdown ("- " +:+ r); St_caption (dict_get GUIDANCE r "")].

(** The handler from [st.markdown("## ... Recommended Policy Categories")]
    to [st.write(note)]. *)
Definition display (a c m ch : string) (final_buckets priority_list : list string)
    (note : string) : list widget :=
  let remaining := filter (λ b, b ∉ priority_list) final_buckets in
  [St_markdown "## 🧭 Recommended Policy Categories"]
  ++ (match priority_list with
      | [] => []
      | _ => St_subheader "🌟 Start Here — Priority Actions"
             :: (priority_list ≫= show_priority)
      end)
  ++ (match remaining with
      | [] => []
      | _ => St_subheader "✅ Also Recommended" :: (remaining ≫= show_remaining)
      end)
  ++ [St_divider; St_subheader "Rationale & Notes";
      St_write ("**Inputs:** Authority=" +:+ a +:+ " | Capacity=" +:+ c
                +:+ " | Market=" +:+ m +:+ " | Challenge=" +:+ ch);
      St_write note].

(** The captions of a display, in order. *)
Definition captions (ws : list widget) : list string :=
  ws ≫= λ w, match w with St_caption body => [body] | _ => [] end.

(** ** The link to the toolkit *)

(** [s.replace(old, new)]: the occurrences of [old] in [s], found from the
    left and not overlapping, become [new].  [replace_from] has [skip]
    characters of a found occurrence still to pass. *)
Fixpoint replace_from (old new : string) (skip : nat) (s : string) : string :=
  match s with
  | EmptyString => EmptyString
  | String c s' =>
      match skip with
      | S k => replace_from old new k s'
      | O =>
          if str_startswith old s
          then new +:+ replace_from old new (String.length old - 1) s'
          else String c (replace_from old new 0 s')
      end
  end.

(** With an empty [old], [new] goes before every character and at the end. *)
Fixpoint replace_empty (new s : string) : string :=
  match s with
  | EmptyString => new
  | String c s' => new +:+ String c (replace_empty new s')
  end.

Definition str_replace (old new s : string) : string :=
  match old with
  | EmptyString => replace_empty new s
  | _ => replace_from old new 0 s
  end.

Definition pdf_path : string := "Local Housing Policy Toolkit.pdf".

(** [safe_href = pdf_path.replace(" ", "%20")], for any path. *)
Definition safe_href_of (path : string) : string := str_replace " " "%20" path.

(** ** The literature page of appV4.py *)

Definition folder_path : string := "Literature Dataset".

(** [s.endswith(suffix)]. *)
Definition str_endswith (suffix s : string) : bool :=
  str_startswith (String.rev suffix) (String.rev s).

(** [os.path.join(a, b)] of [posixpath]. *)
Definition os_path_join (a b : string) : string :=
  if str_startswith "/" b then b
  else if bool_decide (a = "") || str_endswith "/" a then a +:+ b
  else a +:+ "/" +:+ b.

(** What the page reads of the file system: [os.path.exists], [os.listdir]
    (in the order of the directory, [None] when it raises) and whether
    [open(path, "rb")] succeeds. *)
Record filesystem := {
  fs_exists : string → bool;
  fs_listdir : string → option (list string);
  fs_open : string → bool
}.

Inductive lit_event :=
| Lit_title (body : string)
| Lit_markdown (body : string)
| Lit_warning (body : string)
| Lit_info (body : string)
| Lit_download_button (label file_path file_name : string)
| Lit_raise.

(** The loop [for f in sorted(files)]; a failing [open] ends the run. *)
Fixpoint list_downloads (fs : filesystem) (files : list string) : list lit_event :=
  match files with
  | [] => []
  | f :: files =>
      let file_path := os_path_join folder_path f in
      Lit_markdown ("**📄 " +:+ f +:+ "**")
      :: (if fs_open fs file_path
          then Lit_download_button ("Download " +:+ f) file_path f
               :: list_downloads fs files
          else [Lit_raise])
  end.

(** The branch [elif page == "... Literature Dataset"]. *)
Definition literature_page (fs : filesystem) : list lit_event :=
  [Lit_title "📚 Literature Dataset Viewer";
   Lit_markdown "Below are the files used to synthesize research behind this tool."]
  ++ (if negb (fs_exists fs folder_path)
      then [Lit_warning ("Folder not found: `" +:+ folder_path
                         +:+ "`. Please make sure it exists in the app directory.")]
      else match fs_listdir fs folder_path with
           | None => [Lit_raise]
           | Some [] => [Lit_info "No files found in the Literature Dataset folder."]
           | Some files => list_downloads fs (sorted files)
           end).

(** The file names of the download buttons of a page, in order. *)
Definition download_names (es : list lit_event) : list string :=
  es ≫= λ e, match e with Lit_download_button _ _ f => [f] | _ => [] end.

(** The 108 combinations of options of the four radio buttons, in the order
    of [all_tuples]. *)
Definition all_options : list (string * string * string * string) :=
  a ← authority_options; c ← capacity_options; m ← market_options;
  ch ← challenge_options; [(a, c, m, ch)].

(** ** The set of the general case *)

(** The set [buckets] when [determine_buckets] reaches [base_order]. *)
Definition general_set (authority capacity challenge : string) : gset string :=
  multiple_rules authority capacity challenge
    (quality_rules authority challenge
       (affordability_rules authority challenge
          (supply_rules authority challenge ∅))).

(** ** Tactics *)

(** Comparisons of two literal codes are settled by evaluation; the remaining
    tests, on an unknown string, by cases. *)
Ltac decide_codes :=
  repeat match goal with
  | |- context [bool_decide (?x = ?y)] =>
      first [ rewrite (bool_decide_true (x = y)) by reflexivity
            | rewrite (bool_decide_false (x = y)) by discriminate ]
  end.

Ltac split_tests :=
  repeat match goal with
  | |- context [bool_decide (?x = ?y)] => destruct (bool_decide (x = y))
  | |- context [list_in ?x ?l] => destruct (list_in x l)
  end.

(** Every test of the rules, by cases; what is left is closed. *)
Ltac rules_cases :=
  unfold general_set, supply_rules, affordability_rules, quality_rules,
    multiple_rules, list_in;
  repeat case_bool_decide; simplify_eq.

Ltac by_compute := apply (bool_decide_unpack _); vm_compute; exact I.

(** ** Facts about the primitives *)

Section sorted_facts.

Lemma sorted_Sorted (l : list string) : Sorted String.le (sorted l).
Proof. apply (Sorted_merge_sort String.le). Qed.

Lemma sorted_Permutation (l : list string) : sorted l ≡ₚ l.
Proof. apply (merge_sort_Permutation String.le). Qed.

(** [sorted] does not see the order of its argument. *)
Lemma sorted_perm (l1 l2 : list string) : l1 ≡ₚ l2 → sorted l1 = sorted l2.
Proof.
  intros Hp. apply (Sorted_unique String.le); auto using sorted_Sorted.
  by rewrite !sorted_Permutation.
Qed.

Lemma sorted_unique (l l' : list string) :
  l ≡ₚ l' → Sorted String.le l' → sorted l = l'.
Proof.
  intros Hp Hs. apply (Sorted_unique String.le); auto using sorted_Sorted.
  by rewrite sorted_Permutation.
Qed.

Lemma sorted_set_iter (h1 h2 : HashOrder) (s : gset string) :
  sorted (set_iter h1 s) = sorted (set_iter h2 s).
Proof. apply sorted_perm. by rewrite !set_iter_perm. Qed.

End sorted_facts.

(** The engine does not see the iteration order of sets. *)
Lemma determine_buckets_order (h1 h2 : HashOrder) (a c m ch : string) :
  determine_buckets h1 a c m ch = determine_buckets h2 a c m ch.
Proof.
  unfold determine_buckets.
  repeat case_bool_decide; try reflexivity.
  f_equal. apply sorted_set_iter.
Qed.

Lemma recommend_order (h1 h2 : HashOrder) (a c m ch : string) :
  recommend h1 a c m ch = recommend h2 a c m ch.
Proof. unfold recommend. by rewrite (determine_buckets_order h1 h2). Qed.

(** ** Minimal capacity *)

(** C1. With capacity [Minimal], whatever the authority, the market and the
    challenge are, [determine_buckets] returns the one category
    Foundation-Building with the minimal-capacity note, and the overlay
    leaves this list as it is, with no priority. *)
Theorem minimal_capacity_override (h : HashOrder) (authority market challenge : string) :
  determine_buckets h authority "Minimal" market challenge = ([FB], note_minimal)
  ∧ apply_priority_overlay challenge [FB] = ([FB], [])
  ∧ recommend h authority "Minimal" market challenge = ([FB], [], note_minimal).
Proof.
  assert (Hd : determine_buckets h authority "Minimal" market challenge
               = ([FB], note_minimal)) by reflexivity.
  assert (Ho : apply_priority_overlay challenge [FB] = ([FB], [])).
  { unfold apply_priority_overlay, priority_of.
    destruct (bool_decide (challenge = "Affordability"));
      [|destruct (bool_decide (challenge = "Supply"))];
      vm_compute; reflexivity. }
  split; [exact Hd|]. split; [exact Ho|].
  unfold recommend. rewrite Hd, Ho. reflexivity.
Qed.

(** ** Scenario 2 *)

(** C7. Limited authority, moderate capacity, stable market, affordability
    challenge: the base list is Development Incentives, Financial Assistance
    (no Regulatory Supply, no Tenant Protections); the overlay puts Financial
    Assistance first, as the one priority. *)
Theorem scenario_limited_moderate_stable_affordability (h : HashOrder) :
  determine_buckets h "Limited" "Moderate" "Stable" "Affordability"
    = ([DI; FA], note_core)
  ∧ (RS ∉ fst (determine_buckets h "Limited" "Moderate" "Stable" "Affordability"))
  ∧ (TP ∉ fst (determine_buckets h "Limited" "Moderate" "Stable" "Affordability"))
  ∧ apply_priority_overlay "Affordability" [DI; FA] = ([FA; DI], [FA])
  ∧ recommend h "Limited" "Moderate" "Stable" "Affordability"
    = ([FA; DI], [FA], note_core).
Proof.
  assert (Hd : determine_buckets h "Limited" "Moderate" "Stable" "Affordability"
               = ([DI; FA], note_core)) by (vm_compute; reflexivity).
  assert (Ho : apply_priority_overlay "Affordability" [DI; FA] = ([FA; DI], [FA]))
    by (vm_compute; reflexivity).
  assert (Hr : recommend h "Limited" "Moderate" "Stable" "Affordability"
               = ([FA; DI], [FA], note_core))
    by (unfold recommend; rewrite Hd, Ho; reflexivity).
  rewrite Hd. split_and!; try assumption; try reflexivity;
    apply (bool_decide_unpack _); vm_compute; exact I.
Qed.

(** ** Weak market *)

Lemma weak_iter_FB (h : HashOrder) : sorted (set_iter h (set_add FB ∅)) = [FB].
Proof.
  apply sorted_unique; [|repeat constructor].
  rewrite set_iter_perm. unfold set_add.
  by rewrite (left_id_L ∅ (∪)), elements_singleton.
Qed.

Lemma weak_iter_FB_PS (h : HashOrder) :
  sorted (set_iter h (set_add PS (set_add FB ∅))) = [FB; PS].
Proof.
  apply sorted_unique; [|repeat constructor; by vm_compute].
  rewrite set_iter_perm. apply NoDup_Permutation.
  - apply NoDup_elements.
  - apply (bool_decide_unpack _). by vm_compute.
  - intros x. rewrite elem_of_elements. unfold set_add. set_solver.
Qed.

Lemma capacity_test (capacity : string) :
  list_in capacity ["Moderate"; "Strong"] = true
  ↔ capacity = "Moderate" ∨ capacity = "Strong".
Proof. unfold list_in. rewrite bool_decide_eq_true. set_solver. Qed.

Lemma challenge_test (challenge : string) :
  list_in challenge ["Quality"; "Multiple"] = true
  ↔ challenge = "Quality" ∨ challenge = "Multiple".
Proof. unfold list_in. rewrite bool_decide_eq_true. set_solver. Qed.

(** The weak-market branch, as a whole. *)
Lemma determine_buckets_weak (h : HashOrder) (authority capacity challenge : string) :
  capacity ≠ "Minimal" →
  determine_buckets h authority capacity "Weak" challenge
  = (if list_in capacity ["Moderate"; "Strong"]
        && list_in challenge ["Quality"; "Multiple"]
     then [FB; PS] else [FB], note_weak).
Proof.
  intros Hc. unfold determine_buckets.
  rewrite (bool_decide_false _ Hc). decide_codes.
  destruct (_ && _); by rewrite ?weak_iter_FB_PS, ?weak_iter_FB.
Qed.

(** C3. Capacity not [Minimal], market [Weak]: for every authority and
    challenge the list has Foundation-Building; it has Preservation &
    Stabilization exactly when the capacity is [Moderate] or [Strong] and the
    challenge is [Quality] or [Multiple]; it has no other category, and the
    note is the weak-market note. *)
Theorem weak_market_floor (h : HashOrder) (authority capacity challenge : string) :
  capacity ≠ "Minimal" →
  let out := determine_buckets h authority capacity "Weak" challenge in
  FB ∈ out.1
  ∧ (PS ∈ out.1 ↔ (capacity = "Moderate" ∨ capacity = "Strong")
                  ∧ (challenge = "Quality" ∨ challenge = "Multiple"))
  ∧ (∀ b, b ∈ out.1 → b = FB ∨ b = PS)
  ∧ out.2 = note_weak.
Proof.
  intros Hc out. subst out. rewrite determine_buckets_weak by done.
  rewrite <- capacity_test, <- challenge_test, <- andb_true_iff.
  destruct (_ && _); simpl; split_and!; try done; set_solver.
Qed.

Lemma weak_market_floor_witness :
  "Moderate" ≠ "Minimal"
  ∧ PS ∈ fst (determine_buckets order_reversed "Limited" "Moderate" "Weak" "Quality").
Proof.
  split; [discriminate|].
  destruct (weak_market_floor order_reversed "Limited" "Moderate" "Quality")
    as (_ & HPS & _ & _); [discriminate|].
  apply HPS. split; left; reflexivity.
Defined.

(** ** The general case *)

(** C9. Capacity not [Minimal], market not [Weak]: for every authority
    (any string, so [Unsure] too) and each of the four challenges, the list
    has Development Incentives. *)
Theorem general_case_has_DI (h : HashOrder) (authority capacity market : string)
    (ch : Challenge.t) :
  capacity ≠ "Minimal" → market ≠ "Weak" →
  DI ∈ fst (determine_buckets h authority capacity market (Challenge.code ch)).
Proof.
  intros Hc Hm. unfold determine_buckets.
  rewrite (bool_decide_false _ Hc), (bool_decide_false _ Hm).
  unfold supply_rules, affordability_rules, quality_rules, multiple_rules.
  destruct ch; simpl Challenge.code; decide_codes; split_tests;
    apply (bool_decide_unpack _); vm_compute; exact I.
Qed.

Lemma general_case_has_DI_witness :
  "Strong" ≠ "Minimal" ∧ "Hot" ≠ "Weak"
  ∧ DI ∈ fst (determine_buckets order_elements "Unsure" "Strong" "Hot"
                (Challenge.code Challenge.Quality)).
Proof.
  split; [discriminate|]. split; [discriminate|].
  apply (general_case_has_DI order_elements "Unsure" "Strong" "Hot" Challenge.Quality);
    discriminate.
Defined.

(** ** Totality on the enumerations *)

Lemma all_tuples_good : forallb good_output all_tuples = true.
Proof. vm_compute. reflexivity. Qed.

Lemma all_tuples_complete (a : Authority.t) (c : Capacity.t) (m : Market.t)
    (ch : Challenge.t) :
  (Authority.code a, Capacity.code c, Market.code m, Challenge.code ch) ∈ all_tuples.
Proof.
  apply (bool_decide_unpack _).
  destruct a, c, m, ch; vm_compute; reflexivity.
Qed.

Lemma recommend_total (h : HashOrder) (a : Authority.t) (c : Capacity.t)
    (m : Market.t) (ch : Challenge.t) :
  ∃ final_buckets priority_list note,
    recommend h (Authority.code a) (Capacity.code c) (Market.code m)
      (Challenge.code ch) = (final_buckets, priority_list, note)
    ∧ final_buckets ≠ [] ∧ NoDup final_buckets.
Proof.
  pose proof all_tuples_good as Hall. rewrite forallb_forall in Hall.
  specialize (Hall _ (proj1 (list_elem_of_In _ _) (all_tuples_complete a c m ch))).
  unfold good_output in Hall.
  rewrite (recommend_order h order_elements).
  destruct (recommend order_elements _ _ _ _) as [[fb pl] nt].
  apply bool_decide_eq_true in Hall. by exists fb, pl, nt.
Qed.

(** C5. On each of the tuples of normalized codes whose authority is not
    [Unsure], [determine_buckets] followed by [apply_priority_overlay] gives a
    result, and its final order is non-empty and has no duplicate. *)
Theorem pipeline_total (h : HashOrder) (a : Authority.t) (c : Capacity.t)
    (m : Market.t) (ch : Challenge.t) :
  a ≠ Authority.Unsure →
  ∃ base_buckets note final_buckets priority_list,
    determine_buckets h (Authority.code a) (Capacity.code c) (Market.code m)
      (Challenge.code ch) = (base_buckets, note)
    ∧ apply_priority_overlay (Challenge.code ch) base_buckets
      = (final_buckets, priority_list)
    ∧ final_buckets ≠ [] ∧ NoDup final_buckets.
Proof.
  intros _.
  destruct (recommend_total h a c m ch) as (fb & pl & nt & Hr & Hne & Hnd).
  unfold recommend in Hr.
  destruct (determine_buckets h _ _ _ _) as [bb nt'].
  destruct (apply_priority_overlay _ bb) as [fb' pl'] eqn:Ho.
  simplify_eq. by exists bb, nt, fb, pl.
Qed.

Lemma pipeline_total_witness :
  Authority.Limited ≠ Authority.Unsure
  ∧ ∃ base_buckets note final_buckets priority_list,
      determine_buckets order_reversed "Limited" "Moderate" "Weak" "Multiple"
        = (base_buckets, note)
      ∧ apply_priority_overlay "Multiple" base_buckets
        = (final_buckets, priority_list)
      ∧ final_buckets ≠ [] ∧ NoDup final_buckets.
Proof.
  split; [discriminate|].
  apply (pipeline_total order_reversed Authority.Limited Capacity.Moderate
           Market.Weak Challenge.Multiple).
  discriminate.
Defined.

(** ** The priority overlay *)

Section overlay.

Implicit Types (acc xs buckets : list string) (s : gset string).

Lemma filter_ext_elem (P Q : string → Prop) `{!∀ x, Decision (P x)}
    `{!∀ x, Decision (Q x)} xs :
  (∀ x, x ∈ xs → P x ↔ Q x) → filter P xs = filter Q xs.
Proof.
  induction xs as [|x xs IH]; intros HPQ; [done|].
  rewrite !filter_cons, IH by (intros; apply HPQ; set_solver).
  apply decide_ext, HPQ. set_solver.
Qed.

Lemma filter_all (P : string → Prop) `{!∀ x, Decision (P x)} xs :
  (∀ x, x ∈ xs → P x) → filter P xs = xs.
Proof.
  induction xs as [|x xs IH]; intros HP; [done|].
  rewrite filter_cons_True, IH; [done| |]; intros; apply HP; set_solver.
Qed.

Lemma filter_none (P : string → Prop) `{!∀ x, Decision (P x)} xs :
  (∀ x, x ∈ xs → ¬ P x) → filter P xs = [].
Proof.
  induction xs as [|x xs IH]; intros HP; [done|].
  rewrite filter_cons_False, IH; [done| |]; intros; apply HP; set_solver.
Qed.

(** The loop appends, in order, the elements that are not there yet. *)
Lemma append_new_cons acc x xs :
  append_new acc (x :: xs)
  = append_new (if list_in x acc then acc else acc ++ [x]) xs.
Proof. reflexivity. Qed.

Lemma append_new_spec xs : ∀ acc,
  NoDup xs → append_new acc xs = acc ++ filter (λ x, x ∉ acc) xs.
Proof.
  induction xs as [|x xs IH]; intros acc Hnd.
  - by rewrite app_nil_r.
  - apply NoDup_cons in Hnd as [Hx Hnd].
    rewrite append_new_cons. unfold list_in. case_bool_decide as Hin.
    + rewrite IH, filter_cons_False by auto. done.
    + rewrite IH, filter_cons_True, <- app_assoc by done. simpl.
      do 2 f_equal. apply filter_ext_elem. intros y Hy.
      rewrite not_elem_of_app, list_elem_of_singleton.
      split; [tauto|]. intros ?; split; [done|]. by intros ->.
Qed.

Lemma append_new_nil xs : NoDup xs → append_new [] xs = xs.
Proof.
  intros Hnd. rewrite append_new_spec by done. simpl.
  apply filter_all. intros x _. apply not_elem_of_nil.
Qed.

Lemma priority_of_elem ch s x : x ∈ priority_of ch s → x ∈ s.
Proof.
  unfold priority_of, set_in.
  repeat case_bool_decide; simpl; set_solver.
Qed.

Lemma priority_of_NoDup ch s : NoDup (priority_of ch s).
Proof.
  unfold priority_of, set_in.
  repeat case_bool_decide; simpl;
    apply (bool_decide_unpack _); vm_compute; exact I.
Qed.

Lemma priority_of_none ch s :
  ch = "Quality" ∨ ch = "Multiple" → priority_of ch s = [].
Proof. intros [-> | ->]; reflexivity. Qed.

(** [apply_priority_overlay] on a list without duplicates: the priorities,
    then the other buckets in their order. *)
Lemma overlay_spec ch buckets :
  NoDup buckets →
  apply_priority_overlay ch buckets
  = (priority_of ch (list_to_set buckets)
       ++ filter (λ b, b ∉ priority_of ch (list_to_set buckets)) buckets,
     priority_of ch (list_to_set buckets)).
Proof.
  intros Hnd. unfold apply_priority_overlay.
  by rewrite append_new_nil, append_new_spec by auto using priority_of_NoDup.
Qed.

Lemma overlay_NoDup ch buckets :
  NoDup buckets → NoDup (apply_priority_overlay ch buckets).1.
Proof.
  intros Hnd. rewrite overlay_spec by done. simpl.
  apply NoDup_app. split_and!.
  - apply priority_of_NoDup.
  - intros x Hx [Hn _]%list_elem_of_filter. done.
  - by apply NoDup_filter.
Qed.

Lemma overlay_Permutation ch buckets :
  NoDup buckets → (apply_priority_overlay ch buckets).1 ≡ₚ buckets.
Proof.
  intros Hnd. apply NoDup_Permutation; [by apply overlay_NoDup|done|].
  intros x. rewrite overlay_spec by done. simpl.
  rewrite elem_of_app, list_elem_of_filter. split.
  - intros [Hp%priority_of_elem | [_ ?]]; [|done].
    by apply elem_of_list_to_set in Hp.
  - intros Hx.
    destruct (decide (x ∈ priority_of ch (list_to_set buckets))); auto.
Qed.

End overlay.

(** C4. On a list of buckets without duplicates and any challenge code, the
    priority list is a sub-sequence of the final order (it is its front), the
    final order is a permutation of the buckets, made of the priorities
    followed by the other buckets in their order, and the priority list is
    empty for the challenges [Quality] and [Multiple]. *)
Theorem priority_subset_law (challenge_code : string) (buckets : list string) :
  NoDup buckets →
  ∃ final_order priority_order,
    apply_priority_overlay challenge_code buckets = (final_order, priority_order)
    ∧ priority_order `sublist_of` final_order
    ∧ final_order ≡ₚ buckets
    ∧ final_order
      = priority_order ++ filter (λ b, b ∉ priority_order) buckets
    ∧ (challenge_code = "Quality" ∨ challenge_code = "Multiple"
       → priority_order = []).
Proof.
  intros Hnd. pose proof (overlay_Permutation challenge_code buckets Hnd) as Hp.
  rewrite overlay_spec in Hp |- * by done. simpl in Hp.
  eexists _, _. split; [reflexivity|]. split_and!.
  - by apply sublist_inserts_r.
  - exact Hp.
  - reflexivity.
  - apply priority_of_none.
Qed.

Lemma priority_subset_law_witness :
  NoDup [RS; DI; FA; TP]
  ∧ ∃ final_order priority_order,
      apply_priority_overlay "Affordability" [RS; DI; FA; TP]
        = (final_order, priority_order)
      ∧ priority_order `sublist_of` final_order
      ∧ final_order ≡ₚ [RS; DI; FA; TP]
      ∧ final_order
        = priority_order ++ filter (λ b, b ∉ priority_order) [RS; DI; FA; TP]
      ∧ ("Affordability" = "Quality" ∨ "Affordability" = "Multiple"
         → priority_order = []).
Proof.
  assert (Hnd : NoDup [RS; DI; FA; TP])
    by (apply (bool_decide_unpack _); vm_compute; exact I).
  split; [exact Hnd|].
  exact (priority_subset_law "Affordability" [RS; DI; FA; TP] Hnd).
Defined.

(** C10. On a list of buckets without duplicates, running the overlay again
    on its own final order, with the same challenge code, gives the same
    final order and the same priority list; for the challenges [Quality] and
    [Multiple] the final order is the list given. *)
Theorem overlay_idempotent (challenge_code : string) (buckets : list string) :
  NoDup buckets →
  apply_priority_overlay challenge_code
    (apply_priority_overlay challenge_code buckets).1
  = apply_priority_overlay challenge_code buckets
  ∧ (challenge_code = "Quality" ∨ challenge_code = "Multiple"
     → (apply_priority_overlay challenge_code buckets).1 = buckets).
Proof.
  intros Hnd. split.
  - pose proof (overlay_NoDup challenge_code buckets Hnd) as Hnd'.
    pose proof (overlay_Permutation challenge_code buckets Hnd) as Hp.
    rewrite (overlay_spec _ _ Hnd').
    assert (Hset : list_to_set (C:=gset string)
                     (apply_priority_overlay challenge_code buckets).1
                   = list_to_set buckets)
      by (apply set_eq; intros x; by rewrite !elem_of_list_to_set, Hp).
    rewrite Hset. rewrite overlay_spec by done. simpl.
    f_equal. f_equal. rewrite filter_app.
    rewrite filter_none by (intros x Hx Hn; done).
    rewrite list_filter_filter_l by done. done.
  - intros Hq. rewrite overlay_spec by done. simpl.
    rewrite (priority_of_none _ _ Hq). simpl.
    apply filter_all. intros x _. apply not_elem_of_nil.
Qed.

Lemma overlay_idempotent_witness :
  NoDup [RS; DI; FA; TP]
  ∧ apply_priority_overlay "Affordability"
      (apply_priority_overlay "Affordability" [RS; DI; FA; TP]).1
    = ([FA; TP; RS; DI], [FA; TP]).
Proof.
  assert (Hnd : NoDup [RS; DI; FA; TP])
    by (apply (bool_decide_unpack _); vm_compute; exact I).
  split; [exact Hnd|].
  destruct (overlay_idempotent "Affordability" [RS; DI; FA; TP] Hnd) as [-> _].
  vm_compute. reflexivity.
Defined.

(** ** Normalization *)

Section substring.

Lemma str_append_nil (s : string) : "" +:+ s = s.
Proof. reflexivity. Qed.

Lemma str_append_cons a (s t : string) : String a s +:+ t = String a (s +:+ t).
Proof. reflexivity. Qed.

Lemma str_startswith_spec (p : string) : ∀ s,
  str_startswith p s = true ↔ ∃ post, s = p +:+ post.
Proof.
  induction p as [|a p IH]; intros s.
  - split; [|done]. intros _. by exists s.
  - destruct s as [|b s]; simpl.
    + split; [done|]. intros [post Hpost]. by rewrite str_append_cons in Hpost.
    + rewrite andb_true_iff, bool_decide_eq_true, IH. split.
      * intros [-> [post ->]]. by exists post.
      * intros [post Hpost]. rewrite str_append_cons in Hpost.
        simplify_eq. eauto.
Qed.

(** The test [needle in hay] decides containment. *)
Lemma str_in_spec (needle hay : string) :
  str_in needle hay = true ↔ Substring needle hay.
Proof.
  unfold Substring. induction hay as [|c hay IH]; simpl.
  - rewrite orb_false_r, str_startswith_spec. split.
    + intros [post ->]. by exists "", post.
    + intros ([|??] & post & Hpost); [by exists post|].
      by rewrite str_append_cons in Hpost.
  - rewrite orb_true_iff, str_startswith_spec, IH. split.
    + intros [[post ->] | (pre & post & ->)].
      * by exists "", post.
      * by exists (String c pre), post.
    + intros ([|c' pre] & post & Hpost).
      * left. by exists post.
      * right. rewrite str_append_cons in Hpost. simplify_eq. eauto.
Qed.

Lemma classify_first_match (keywords : list string) (default raw : string) :
  first_match raw keywords default (classify keywords default raw).
Proof.
  induction keywords as [|k ks IH]; simpl; [constructor|].
  destruct (str_in k raw) eqn:Hk.
  - apply fm_hit. by apply str_in_spec.
  - apply fm_skip; [|done]. rewrite <- str_in_spec. by rewrite Hk.
Qed.

(** The policy leaves no choice: one code per raw string. *)
Lemma first_match_unique raw keywords default code1 code2 :
  first_match raw keywords default code1 →
  first_match raw keywords default code2 → code1 = code2.
Proof.
  induction 1; inversion 1; subst; try done. by apply IHfirst_match.
Qed.

End substring.

Lemma normalize_inputs_classify (authority capacity market challenge : string) :
  normalize_inputs authority capacity market challenge
  = (classify ["Unsure"; "Limited"] "Strong" authority,
     classify ["Minimal"; "Moderate"] "Strong" capacity,
     classify ["Weak"; "Stable"] "Hot" market,
     classify ["Multiple"; "Quality"; "Affordability"] "Supply" challenge).
Proof. reflexivity. Qed.

(** The normalized codes are codes of the four enumerations. *)
Lemma normalize_inputs_codes (authority capacity market challenge : string) :
  ∃ (a : Authority.t) (c : Capacity.t) (m : Market.t) (ch : Challenge.t),
    normalize_inputs authority capacity market challenge
    = (Authority.code a, Capacity.code c, Market.code m, Challenge.code ch).
Proof.
  unfold normalize_inputs.
  exists (if str_in "Unsure" authority then Authority.Unsure
          else if str_in "Limited" authority then Authority.Limited
          else Authority.Strong),
    (if str_in "Minimal" capacity then Capacity.Minimal
     else if str_in "Moderate" capacity then Capacity.Moderate
     else Capacity.Strong),
    (if str_in "Weak" market then Market.Weak
     else if str_in "Stable" market then Market.Stable else Market.Hot),
    (if str_in "Multiple" challenge then Challenge.Multiple
     else if str_in "Quality" challenge then Challenge.Quality
     else if str_in "Affordability" challenge then Challenge.Affordability
     else Challenge.Supply).
  repeat match goal with |- context [str_in ?k ?r] => destruct (str_in k r) end;
    reflexivity.
Qed.

(** C6. For every four raw strings [normalize_inputs] returns a tuple of
    codes of the enumerations, and each code is the first keyword, in the
    order of its field, that the raw string contains, or the default of the
    field when it contains none: [Unsure], [Limited], else [Strong];
    [Minimal], [Moderate], else [Strong]; [Weak], [Stable], else [Hot];
    [Multiple], [Quality], [Affordability], else [Supply]. *)
Theorem normalize_inputs_first_match (authority capacity market challenge : string) :
  ∃ (a : Authority.t) (c : Capacity.t) (m : Market.t) (ch : Challenge.t),
    normalize_inputs authority capacity market challenge
    = (Authority.code a, Capacity.code c, Market.code m, Challenge.code ch)
    ∧ first_match authority ["Unsure"; "Limited"] "Strong" (Authority.code a)
    ∧ first_match capacity ["Minimal"; "Moderate"] "Strong" (Capacity.code c)
    ∧ first_match market ["Weak"; "Stable"] "Hot" (Market.code m)
    ∧ first_match challenge ["Multiple"; "Quality"; "Affordability"] "Supply"
        (Challenge.code ch).
Proof.
  destruct (normalize_inputs_codes authority capacity market challenge)
    as (a & c & m & ch & Hn).
  exists a, c, m, ch. split; [exact Hn|].
  rewrite normalize_inputs_classify in Hn.
  injection Hn as <- <- <- <-.
  split_and!; apply classify_first_match.
Qed.

(** ** The handler *)

Lemma generate_unsure (warning_text : string) (h : HashOrder)
    (authority capacity market challenge c m ch : string) :
  normalize_inputs authority capacity market challenge = ("Unsure", c, m, ch) →
  generate warning_text h authority capacity market challenge
  = MkScript (trace_halted warning_text) None.
Proof. intros Hn. unfold generate. rewrite Hn. reflexivity. Qed.

Lemma generate_sure (warning_text : string) (h : HashOrder)
    (authority capacity market challenge a c m ch : string) :
  normalize_inputs authority capacity market challenge = (a, c, m, ch) →
  a ≠ "Unsure" →
  ∃ r, generate warning_text h authority capacity market challenge
       = MkScript trace_completed (Some r)
       ∧ inputs r = (a, c, m, ch)
       ∧ (final_buckets r, priority_list r, note r) = recommend h a c m ch
       ∧ remaining r = filter (λ b, b ∉ priority_list r) (final_buckets r)
       ∧ row_recommendations (df r) = str_join "; " (final_buckets r)
       ∧ row_priority_order (df r) = str_join "; " (priority_list r).
Proof.
  intros Hn Ha. unfold generate, recommend. rewrite Hn.
  rewrite (bool_decide_false _ Ha).
  destruct (determine_buckets h a c m ch) as [bb nt].
  destruct (apply_priority_overlay ch bb) as [fb pl].
  eexists. split; [reflexivity|]. by split_and!.
Qed.

(** C2. The run of the handler has no result exactly when the normalized
    authority is [Unsure].  In that case the run is: normalization, the
    warning, the stop; [determine_buckets] is not entered.  For any other
    normalized authority the run goes through the three engine functions to
    the success message and has a result, which holds the normalized tuple,
    the final order, the priority list and the note of the engine, and a
    final order that is not empty. *)
Theorem unsure_halts_pipeline (warning_text : string) (h : HashOrder)
    (authority capacity market challenge : string) :
  let run := generate warning_text h authority capacity market challenge in
  let a := (normalize_inputs authority capacity market challenge).1.1.1 in
  (value run = None ↔ a = "Unsure")
  ∧ (a = "Unsure" →
     trace run = trace_halted warning_text
     ∧ Call Fn_determine_buckets ∉ trace run)
  ∧ (a ≠ "Unsure" →
     ∃ r c m ch,
       value run = Some r ∧ trace run = trace_completed
       ∧ normalize_inputs authority capacity market challenge = (a, c, m, ch)
       ∧ inputs r = (a, c, m, ch)
       ∧ (final_buckets r, priority_list r, note r) = recommend h a c m ch
       ∧ final_buckets r ≠ []).
Proof.
  intros run a. subst run a.
  destruct (normalize_inputs authority capacity market challenge)
    as [[[a c] m] ch] eqn:Hn. cbn [fst].
  destruct (decide (a = "Unsure")) as [-> | Ha].
  - rewrite (generate_unsure _ _ _ _ _ _ _ _ _ Hn). cbn [value trace].
    split_and!; [done| |done]. intros _. split; [done|].
    unfold trace_halted. rewrite !elem_of_cons, elem_of_nil. naive_solver.
  - destruct (generate_sure warning_text h _ _ _ _ _ _ _ _ Hn Ha)
      as (r & -> & Hi & Hr & _). cbn [value trace].
    split_and!; [done|done|]. intros _. exists r, c, m, ch.
    split_and!; try done.
    destruct (normalize_inputs_codes authority capacity market challenge)
      as (a' & c' & m' & ch' & Hn'). rewrite Hn in Hn'. simplify_eq.
    destruct (recommend_total h a' c' m' ch') as (fb & pl & nt & Hr' & Hne & _).
    rewrite Hr' in Hr. by simplify_eq.
Qed.

(** ** Determinism *)

(** C8. Two runs of the handler on the same four raw strings give the same
    run, whatever the set iteration orders [h1] and [h2] of the two processes
    are: the same events and the same result, so the same normalized tuple,
    final order, priority list, note and export row. *)
Theorem pipeline_deterministic (warning_text : string) (h1 h2 : HashOrder)
    (authority capacity market challenge : string) :
  generate warning_text h1 authority capacity market challenge
  = generate warning_text h2 authority capacity market challenge.
Proof.
  unfold generate.
  destruct (normalize_inputs authority capacity market challenge)
    as [[[a c] m] ch].
  by rewrite (determine_buckets_order h1 h2).
Qed.

(** ** Runs on the options of the radio buttons *)

(** The two iteration orders above do enumerate a set differently, so the
    order is a state that the statements on [HashOrder] range over. *)
Example orders_differ :
  set_iter order_elements {[FB; PS]} ≠ set_iter order_reversed {[FB; PS]}.
Proof. vm_compute. discriminate. Qed.

Example normalize_scenario_2 :
  normalize_inputs
    "Limited Local Authority (Dillon Rule - state restricts key areas; significant preemptions)"
    "Moderate Capacity (limited budget, small or inexperienced staff)"
    "Stable Market" "Affordability Crisis"
  = ("Limited", "Moderate", "Stable", "Affordability").
Proof. vm_compute. reflexivity. Qed.

Example run_unsure_v3 :
  generate_v3 order_elements "Unsure"
    "Strong Capacity (dedicated funding, deep staffing levels)"
    "Hot Market" "Supply Shortage"
  = MkScript (trace_halted warning_v3) None.
Proof. vm_compute. reflexivity. Qed.

Example run_unsure_v4 :
  generate_v4 order_reversed "Unsure"
    "Minimal Capacity (near-zero budget, minimal staff)"
    "Weak/Declining Market" "Multiple Crises"
  = MkScript (trace_halted warning_v4) None.
Proof. vm_compute. reflexivity. Qed.

Example run_scenario_1 :
  (λ r, (inputs r, final_buckets r, priority_list r, remaining r))
  <$> value (generate_v4 order_reversed
        "Strong Local Authority (Home Rule - broad powers; few preemptions)"
        "Strong Capacity (dedicated funding, deep staffing levels)"
        "Hot Market" "Supply Shortage")
  = Some (("Strong", "Strong", "Hot", "Supply"), [RS; DI], [RS; DI], []).
Proof. vm_compute. reflexivity. Qed.

Example run_weak_quality :
  (λ r, (final_buckets r, priority_list r, note r, row_recommendations (df r)))
  <$> value (generate_v3 order_reversed
        "Limited Local Authority (Dillon Rule - state restricts key areas; significant preemptions)"
        "Moderate Capacity (limited budget, small or inexperienced staff)"
        "Weak/Declining Market" "Housing Quality")
  = Some ([FB; PS], [], note_weak,
          "Foundation-Building (FB); Preservation & Stabilization (PS)").
Proof. vm_compute. reflexivity. Qed.

(** ** More on the determiner *)

Lemma determine_buckets_minimal (h : HashOrder) (authority market challenge : string) :
  determine_buckets h authority "Minimal" market challenge = ([FB], note_minimal).
Proof. reflexivity. Qed.

Lemma determine_buckets_general (h : HashOrder)
    (authority capacity market challenge : string) :
  capacity ≠ "Minimal" → market ≠ "Weak" →
  determine_buckets h authority capacity market challenge
  = (filter (λ b, b ∈ general_set authority capacity challenge) base_order,
     note_core).
Proof.
  intros Hc Hm. unfold determine_buckets.
  by rewrite (bool_decide_false _ Hc), (bool_decide_false _ Hm).
Qed.

(** The three branches of [determine_buckets]. *)
Lemma determine_buckets_cases (h : HashOrder)
    (authority capacity market challenge : string) :
  (capacity = "Minimal"
   ∧ determine_buckets h authority capacity market challenge = ([FB], note_minimal))
  ∨ (capacity ≠ "Minimal" ∧ market = "Weak"
     ∧ (determine_buckets h authority capacity market challenge = ([FB], note_weak)
        ∨ determine_buckets h authority capacity market challenge
          = ([FB; PS], note_weak)))
  ∨ (capacity ≠ "Minimal" ∧ market ≠ "Weak"
     ∧ determine_buckets h authority capacity market challenge
       = (filter (λ b, b ∈ general_set authority capacity challenge) base_order,
          note_core)).
Proof.
  destruct (decide (capacity = "Minimal")) as [-> | Hc]; [by left|].
  right. destruct (decide (market = "Weak")) as [-> | Hm].
  - left. split_and!; try done. rewrite determine_buckets_weak by done.
    destruct (_ && _); auto.
  - right. split_and!; try done. by apply determine_buckets_general.
Qed.

(** X1. Whatever the four strings and the iteration order of sets are, the
    list returned by [determine_buckets] is a sub-sequence of [base_order]:
    the sorted list of the weak-market branch is in the canonical order too,
    and no list has a duplicate. *)
Theorem determine_buckets_in_base_order (h : HashOrder)
    (authority capacity market challenge : string) :
  fst (determine_buckets h authority capacity market challenge)
    `sublist_of` base_order
  ∧ NoDup (fst (determine_buckets h authority capacity market challenge)).
Proof.
  assert (Hnd : NoDup base_order) by by_compute.
  assert (Hsub : fst (determine_buckets h authority capacity market challenge)
                   `sublist_of` base_order).
  { destruct (determine_buckets_cases h authority capacity market challenge)
      as [[_ ->] | [(_ & _ & [-> | ->]) | (_ & _ & ->)]]; simpl.
    - apply sublist_skip, sublist_nil_l.
    - apply sublist_skip, sublist_nil_l.
    - apply sublist_skip, sublist_skip, sublist_nil_l.
    - apply sublist_filter. }
  split; [exact Hsub|]. by eapply sublist_NoDup.
Qed.

Lemma elem_of_general (authority capacity challenge b : string) :
  b ∈ filter (λ b, b ∈ general_set authority capacity challenge) base_order
  ↔ b ∈ general_set authority capacity challenge.
Proof.
  rewrite list_elem_of_filter. split; [tauto|]. intros Hb. split; [done|].
  apply (elem_of_list_to_set (C:=gset string)).
  revert b Hb. change (general_set authority capacity challenge
                       ⊆ list_to_set base_order).
  rules_cases; by_compute.
Qed.

(** X2. Foundation-Building is recommended exactly when the capacity is
    [Minimal] or the market is [Weak]: the general case never adds it. *)
Theorem FB_iff_minimal_or_weak (h : HashOrder)
    (authority capacity market challenge : string) :
  FB ∈ fst (determine_buckets h authority capacity market challenge)
  ↔ capacity = "Minimal" ∨ market = "Weak".
Proof.
  destruct (determine_buckets_cases h authority capacity market challenge)
    as [[? ->] | [(? & ? & [-> | ->]) | (? & ? & ->)]]; simpl.
  - split; [auto|]. intros _. set_solver.
  - split; [auto|]. intros _. set_solver.
  - split; [auto|]. intros _. set_solver.
  - rewrite elem_of_general. split; [|naive_solver].
    intros Hin. exfalso. revert Hin. rules_cases; by_compute.
Qed.

(** X3. Tenant Protections is recommended only to an authority [Strong], and
    Regulatory Supply never to an authority [Limited], for every capacity,
    market and challenge. *)
Theorem authority_gates (h : HashOrder)
    (authority capacity market challenge : string) :
  (TP ∈ fst (determine_buckets h authority capacity market challenge)
   → authority = "Strong")
  ∧ (RS ∈ fst (determine_buckets h authority capacity market challenge)
     → authority ≠ "Limited").
Proof.
  destruct (determine_buckets_cases h authority capacity market challenge)
    as [[? ->] | [(? & ? & [-> | ->]) | (? & ? & ->)]]; simpl.
  - split; intros Hin; exfalso; revert Hin; by_compute.
  - split; intros Hin; exfalso; revert Hin; by_compute.
  - split; intros Hin; exfalso; revert Hin; by_compute.
  - rewrite !elem_of_general. split.
    + rules_cases; try done; intros Hin; exfalso; revert Hin; by_compute.
    + rules_cases; try done; intros Hin; exfalso; revert Hin; by_compute.
Qed.

(** X4. [determine_buckets] returns the empty list exactly when the capacity
    is not [Minimal], the market is not [Weak] and the challenge is none of
    the four codes; the note is then the one of the core logic: a challenge
    code that is not known gives no category and no error. *)
Theorem empty_iff_unknown_challenge (h : HashOrder)
    (authority capacity market challenge : string) :
  (fst (determine_buckets h authority capacity market challenge) = []
   ↔ capacity ≠ "Minimal" ∧ market ≠ "Weak"
     ∧ challenge ∉ ["Supply"; "Affordability"; "Quality"; "Multiple"])
  ∧ (fst (determine_buckets h authority capacity market challenge) = []
     → snd (determine_buckets h authority capacity market challenge) = note_core).
Proof.
  destruct (determine_buckets_cases h authority capacity market challenge)
    as [[? ->] | [(? & ? & [-> | ->]) | (? & ? & ->)]]; simpl;
    try (split; [split; [done|tauto]|done]).
  split; [|done]. split.
  - intros Hnil. split_and!; try done. intros Hch.
    assert (DI ∈ general_set authority capacity challenge) as Hin.
    { clear Hnil. rules_cases; try by_compute. set_solver. }
    apply elem_of_general in Hin. rewrite Hnil in Hin. by apply elem_of_nil in Hin.
  - intros (_ & _ & Hch).
    assert (general_set authority capacity challenge = ∅) as ->.
    { rules_cases; try done; exfalso; apply Hch; set_solver. }
    reflexivity.
Qed.




(** ** The overlay on any list *)

Section overlay_any.

Implicit Types (acc xs buckets : list string).

Lemma append_new_NoDup xs : ∀ acc, NoDup acc → NoDup (append_new acc xs).
Proof.
  induction xs as [|x xs IH]; intros acc Hnd; [done|].
  rewrite append_new_cons. unfold list_in. case_bool_decide; apply IH; [done|].
  apply NoDup_app. split_and!; [done| |apply NoDup_singleton].
  intros y Hy ->%list_elem_of_singleton. done.
Qed.

Lemma append_new_elem xs : ∀ acc x,
  x ∈ append_new acc xs ↔ x ∈ acc ∨ x ∈ xs.
Proof.
  induction xs as [|y xs IH]; intros acc x.
  - simpl. rewrite elem_of_nil. tauto.
  - rewrite append_new_cons, IH, elem_of_cons. unfold list_in.
    case_bool_decide; [naive_solver|].
    rewrite elem_of_app, list_elem_of_singleton. tauto.
Qed.

Lemma append_new_prefix xs : ∀ acc, acc `prefix_of` append_new acc xs.
Proof.
  induction xs as [|y xs IH]; intros acc; [done|].
  rewrite append_new_cons. unfold list_in. case_bool_decide; [apply IH|].
  etrans; [|apply IH]. by apply prefix_app_r.
Qed.

End overlay_any.

(** X6. On any list of buckets, with duplicates or not, the final order of
    [apply_priority_overlay] has no duplicate, has exactly the elements of
    the list, and begins with the priority list; it is a permutation of the
    list exactly when the list has no duplicate. *)
Theorem overlay_any_input (challenge_code : string) (buckets : list string) :
  let final_order := fst (apply_priority_overlay challenge_code buckets) in
  let priority_order := snd (apply_priority_overlay challenge_code buckets) in
  NoDup final_order
  ∧ (∀ b, b ∈ final_order ↔ b ∈ buckets)
  ∧ priority_order `prefix_of` final_order
  ∧ (final_order ≡ₚ buckets ↔ NoDup buckets).
Proof.
  intros final_order priority_order.
  assert (Hnd : NoDup final_order).
  { apply append_new_NoDup, append_new_NoDup, NoDup_nil_2. }
  split_and!.
  - exact Hnd.
  - intros b. unfold final_order, apply_priority_overlay. cbn [fst].
    rewrite !append_new_elem, elem_of_nil. split; [|tauto].
    intros [[[]|Hp]|Hb]; [|done].
    apply priority_of_elem in Hp. by apply elem_of_list_to_set in Hp.
  - unfold final_order, priority_order, apply_priority_overlay. cbn [fst snd].
    rewrite (append_new_nil (priority_of _ _)) by apply priority_of_NoDup.
    apply append_new_prefix.
  - split; [intros Hp; by rewrite <- Hp|apply overlay_Permutation].
Qed.

(** ** What a completed run shows *)

Lemma recommend_spec (h : HashOrder) (a c m ch : string) :
  ∃ base_buckets note priority_list,
    determine_buckets h a c m ch = (base_buckets, note)
    ∧ NoDup base_buckets
    ∧ base_buckets ⊆ base_order
    ∧ priority_list = priority_of ch (list_to_set base_buckets)
    ∧ recommend h a c m ch
      = (priority_list ++ filter (λ b, b ∉ priority_list) base_buckets,
         priority_list, note).
Proof.
  destruct (determine_buckets_in_base_order h a c m ch) as [Hsub Hnd].
  unfold recommend.
  destruct (determine_buckets h a c m ch) as [bb nt]. cbn [fst] in *.
  exists bb, nt, (priority_of ch (list_to_set bb)). split_and!; try done.
  - by apply sublist_subseteq.
  - by rewrite overlay_spec.
Qed.

(** What a run that completes has computed. *)
Lemma generate_result (warning_text : string) (h : HashOrder)
    (authority capacity market challenge : string) (r : result) :
  value (generate warning_text h authority capacity market challenge) = Some r →
  ∃ a c m ch base_buckets,
    inputs r = (a, c, m, ch)
    ∧ fst (determine_buckets h a c m ch) = base_buckets
    ∧ NoDup base_buckets
    ∧ base_buckets ⊆ base_order
    ∧ priority_list r ⊆ base_buckets
    ∧ NoDup (priority_list r)
    ∧ final_buckets r
      = priority_list r ++ filter (λ b, b ∉ priority_list r) base_buckets
    ∧ remaining r = filter (λ b, b ∉ priority_list r) (final_buckets r).
Proof.
  intros Hrun.
  destruct (normalize_inputs authority capacity market challenge)
    as [[[a c] m] ch] eqn:Hn.
  destruct (decide (a = "Unsure")) as [-> | Ha].
  { by rewrite (generate_unsure _ _ _ _ _ _ _ _ _ Hn) in Hrun. }
  destruct (generate_sure warning_text h _ _ _ _ _ _ _ _ Hn Ha)
    as (r' & Hg & Hi & Hr & Hrem & _).
  rewrite Hg in Hrun. cbn [value] in Hrun. simplify_eq.
  destruct (recommend_spec h a c m ch)
    as (bb & nt & pl & Hd & Hnd & Hsub & Hpl & Hrec).
  rewrite Hrec in Hr. injection Hr as Hfb Hpr _.
  exists a, c, m, ch, bb. rewrite Hd, Hfb, Hpr. split_and!; try done.
  - intros x Hx. rewrite Hpl in Hx. apply priority_of_elem in Hx.
    by apply elem_of_list_to_set in Hx.
  - rewrite Hpl. apply priority_of_NoDup.
  - by rewrite Hrem, Hfb, Hpr.
Qed.

Lemma priority_then_rest (pl bb : list string) :
  NoDup bb → NoDup pl → pl ⊆ bb →
  pl ++ filter (λ b, b ∉ pl) bb ≡ₚ bb.
Proof.
  intros Hnd Hpl Hsub. apply NoDup_Permutation; [|done|].
  - apply NoDup_app. split_and!; [done| |by apply NoDup_filter].
    intros x Hx [Hn _]%list_elem_of_filter. done.
  - intros x. rewrite elem_of_app, list_elem_of_filter. split.
    + intros [Hp | [_ ?]]; auto.
    + intros Hx. destruct (decide (x ∈ pl)); auto.
Qed.

Lemma remaining_of_final (pl bb : list string) :
  filter (λ b, b ∉ pl) (pl ++ filter (λ b, b ∉ pl) bb)
  = filter (λ b, b ∉ pl) bb.
Proof.
  rewrite filter_app.
  rewrite (filter_none _ pl) by (intros x Hx Hn; done).
  by rewrite list_filter_filter_l.
Qed.

(** X7. In the result of every completed run of the handler, on any four raw
    strings, the final order is the priority list followed by the list
    [remaining]: each recommended category is shown once, under the
    priorities or under the others.  The final order is a permutation of the
    list of [determine_buckets] and holds labels of [base_order] only. *)
Theorem completed_run_partition (warning_text : string) (h : HashOrder)
    (authority capacity market challenge : string) (r : result) :
  value (generate warning_text h authority capacity market challenge) = Some r →
  final_buckets r = priority_list r ++ remaining r
  ∧ NoDup (final_buckets r)
  ∧ final_buckets r ⊆ base_order
  ∧ (let '(a, c, m, ch) := inputs r in
     final_buckets r ≡ₚ fst (determine_buckets h a c m ch)).
Proof.
  intros Hrun.
  destruct (generate_result _ _ _ _ _ _ _ Hrun)
    as (a & c & m & ch & bb & Hi & Hd & Hnd & Hsub & Hpsub & Hpnd & Hfb & Hrem).
  pose proof (priority_then_rest _ _ Hnd Hpnd Hpsub) as Hperm.
  rewrite Hi, Hd, Hrem, Hfb. split_and!.
  - by rewrite remaining_of_final.
  - by rewrite Hperm.
  - intros x Hx. apply Hsub. by rewrite <- Hperm.
  - exact Hperm.
Qed.

Lemma completed_run_partition_witness :
  ∃ r, value (generate_v3 order_reversed
                "Strong Local Authority (Home Rule - broad powers; few preemptions)"
                "Moderate Capacity (limited budget, small or inexperienced staff)"
                "Stable Market" "Affordability Crisis") = Some r
       ∧ final_buckets r = priority_list r ++ remaining r.
Proof.
  eexists. split; [vm_compute; reflexivity|].
  eapply (completed_run_partition warning_v3 order_reversed
            "Strong Local Authority (Home Rule - broad powers; few preemptions)"
            "Moderate Capacity (limited budget, small or inexperienced staff)"
            "Stable Market" "Affordability Crisis").
  vm_compute. reflexivity.
Defined.

(** ** The captions *)

Lemma captions_app (ws1 ws2 : list widget) :
  captions (ws1 ++ ws2) = captions ws1 ++ captions ws2.
Proof. apply bind_app. Qed.

Lemma captions_show_priority (l : list string) :
  captions (l ≫= show_priority) = (λ b, dict_get GUIDANCE b "") <$> l.
Proof.
  induction l as [|x l IH]; [done|].
  rewrite bind_cons, captions_app, IH. reflexivity.
Qed.

Lemma captions_show_remaining (l : list string) :
  captions (l ≫= show_remaining) = (λ b, dict_get GUIDANCE b "") <$> l.
Proof.
  induction l as [|x l IH]; [done|].
  rewrite bind_cons, captions_app, IH. reflexivity.
Qed.

(** The captions of a display: the guidance of the priorities, then of the
    other buckets. *)
Lemma captions_display (a c m ch : string) (fb pl : list string) (nt : string) :
  captions (display a c m ch fb pl nt)
  = (λ b, dict_get GUIDANCE b "") <$> (pl ++ filter (λ b, b ∉ pl) fb).
Proof.
  unfold display. rewrite !captions_app, fmap_app.
  change (captions [St_markdown _]) with (@nil string).
  rewrite app_nil_l. f_equal; [|rewrite <- app_nil_r; f_equal].
  - destruct pl as [|p pl]; [done|].
    change (captions (St_subheader ?s :: ?ws)) with (captions ws).
    apply captions_show_priority.
  - destruct (filter _ fb) as [|x xs]; [done|].
    change (captions (St_subheader ?s :: ?ws)) with (captions ws).
    apply captions_show_remaining.
Qed.

Lemma GUIDANCE_base_order :
  Forall (λ b, is_Some (GUIDANCE !! b) ∧ dict_get GUIDANCE b "" ≠ "") base_order.
Proof. by_compute. Qed.

(** X8. In the display of every completed run the captions are the guidance
    texts of the categories of the final order, one each and in that order;
    every category has an entry in [GUIDANCE], so that no caption is the
    empty default of [GUIDANCE.get]. *)
Theorem display_captions (warning_text : string) (h : HashOrder)
    (authority capacity market challenge : string) (r : result) :
  value (generate warning_text h authority capacity market challenge) = Some r →
  (let '(a, c, m, ch) := inputs r in
   captions (display a c m ch (final_buckets r) (priority_list r) (note r))
   = (λ b, dict_get GUIDANCE b "") <$> final_buckets r)
  ∧ (∀ b, b ∈ final_buckets r →
       GUIDANCE !! b = Some (dict_get GUIDANCE b "")
       ∧ dict_get GUIDANCE b "" ≠ "").
Proof.
  intros Hrun.
  destruct (generate_result _ _ _ _ _ _ _ Hrun)
    as (a & c & m & ch & bb & Hi & Hd & Hnd & Hsub & Hpsub & Hpnd & Hfb & Hrem).
  pose proof (priority_then_rest _ _ Hnd Hpnd Hpsub) as Hperm.
  rewrite Hi. split.
  - rewrite captions_display. f_equal.
    etrans; [|symmetry; exact Hfb]. f_equal.
    rewrite Hfb. apply remaining_of_final.
  - intros b Hb. rewrite Hfb, Hperm in Hb. apply Hsub in Hb.
    pose proof GUIDANCE_base_order as HG. rewrite Forall_forall in HG.
    destruct (HG b Hb) as [[v Hv] Hne]. split; [|done].
    unfold dict_get. by rewrite Hv.
Qed.

Lemma display_captions_witness :
  ∃ r, value (generate_v4 order_elements
                "Limited Local Authority (Dillon Rule - state restricts key areas; significant preemptions)"
                "Strong Capacity (dedicated funding, deep staffing levels)"
                "Hot Market" "Multiple Crises") = Some r
       ∧ ∀ b, b ∈ final_buckets r →
           GUIDANCE !! b = Some (dict_get GUIDANCE b "")
           ∧ dict_get GUIDANCE b "" ≠ "".
Proof.
  eexists. split; [vm_compute; reflexivity|].
  eapply (display_captions warning_v4 order_elements
            "Limited Local Authority (Dillon Rule - state restricts key areas; significant preemptions)"
            "Strong Capacity (dedicated funding, deep staffing levels)"
            "Hot Market" "Multiple Crises").
  vm_compute. reflexivity.
Defined.

(** ** Normalization, again *)

(** X9. Normalizing the codes that [normalize_inputs] returns gives these
    codes back: each code contains its own keyword and none of an earlier
    one, and the defaults contain no keyword. *)
Theorem normalize_inputs_idempotent (authority capacity market challenge : string) :
  let '(a, c, m, ch) := normalize_inputs authority capacity market challenge in
  normalize_inputs a c m ch = (a, c, m, ch).
Proof.
  destruct (normalize_inputs_codes authority capacity market challenge)
    as (a & c & m & ch & ->).
  destruct a, c, m, ch; vm_compute; reflexivity.
Qed.

(** X10. The options of the four radio buttons are normalized to the codes
    of the enumerations, option by option and in their order; the 108
    combinations of options give the 108 tuples of codes, all different. *)
Theorem options_normalize_to_codes :
  (λ t, normalize_inputs t.1.1.1 t.1.1.2 t.1.2 t.2) <$> all_options = all_tuples
  ∧ NoDup all_tuples
  ∧ length all_options = 108.
Proof.
  split_and!; [vm_compute; reflexivity|by_compute|reflexivity].
Qed.

(** ** The link to the toolkit *)

Lemma str_in_space_cons (c : Ascii.ascii) (s : string) :
  str_in " " (String c s) = bool_decide (Ascii.Space = c) || str_in " " s.
Proof. simpl. by rewrite andb_true_r. Qed.

Lemma replace_space_cons (c : Ascii.ascii) (s : string) :
  replace_from " " "%20" 0 (String c s)
  = if bool_decide (Ascii.Space = c)
    then "%20" +:+ replace_from " " "%20" 0 s
    else String c (replace_from " " "%20" 0 s).
Proof. simpl. by rewrite andb_true_r. Qed.

(** X11. [path.replace(" ", "%20")] leaves no space in the link, whatever the
    path is, and gives back a path that has no space as it is; the link of
    the toolkit is [Local%20Housing%20Policy%20Toolkit.pdf]. *)
Theorem safe_href_no_space (path : string) :
  str_in " " (safe_href_of path) = false
  ∧ (str_in " " path = false → safe_href_of path = path)
  ∧ safe_href_of pdf_path = "Local%20Housing%20Policy%20Toolkit.pdf".
Proof.
  unfold safe_href_of, str_replace. split_and!; [| |reflexivity].
  - induction path as [|c path IH]; [done|].
    rewrite replace_space_cons. case_bool_decide as Hc.
    + rewrite !str_append_cons, str_append_nil.
      rewrite !str_in_space_cons, IH. reflexivity.
    + rewrite str_in_space_cons, IH. by rewrite bool_decide_false.
  - induction path as [|c path IH]; [done|].
    rewrite str_in_space_cons, replace_space_cons.
    intros [Hc Hs]%orb_false_iff. rewrite Hc, IH by done. done.
Qed.

(** ** The literature page *)

Section literature.

Implicit Types (fs : filesystem) (files : list string).

Lemma list_downloads_cons fs f files :
  list_downloads fs (f :: files)
  = Lit_markdown ("**📄 " +:+ f +:+ "**")
    :: (if fs_open fs (os_path_join folder_path f)
        then Lit_download_button ("Download " +:+ f)
               (os_path_join folder_path f) f :: list_downloads fs files
        else [Lit_raise]).
Proof. reflexivity. Qed.

Lemma download_names_markdown (body : string) (es : list lit_event) :
  download_names (Lit_markdown body :: es) = download_names es.
Proof. reflexivity. Qed.

Lemma download_names_button (label path f : string) (es : list lit_event) :
  download_names (Lit_download_button label path f :: es)
  = f :: download_names es.
Proof. reflexivity. Qed.

Lemma list_downloads_names fs files :
  download_names (list_downloads fs files) `prefix_of` files.
Proof.
  induction files as [|f files IH]; [done|].
  rewrite list_downloads_cons, download_names_markdown.
  destruct (fs_open fs _).
  - rewrite download_names_button. by apply prefix_cons.
  - apply prefix_nil.
Qed.

Lemma list_downloads_all fs files :
  (∀ f, f ∈ files → fs_open fs (os_path_join folder_path f) = true) →
  download_names (list_downloads fs files) = files.
Proof.
  induction files as [|f files IH]; intros Hopen; [done|].
  rewrite list_downloads_cons, download_names_markdown.
  rewrite Hopen by apply list_elem_of_here.
  rewrite download_names_button. f_equal. apply IH.
  intros g Hg. apply Hopen. by apply list_elem_of_further.
Qed.

Lemma list_downloads_raise fs files :
  Lit_raise ∈ list_downloads fs files
  ↔ ∃ f, f ∈ files ∧ fs_open fs (os_path_join folder_path f) = false.
Proof.
  induction files as [|f files IH].
  - simpl. rewrite elem_of_nil. split; [done|]. intros (f & Hf & _).
    by apply elem_of_nil in Hf.
  - rewrite list_downloads_cons, elem_of_cons.
    destruct (fs_open fs _) eqn:Hf.
    + rewrite elem_of_cons, IH. split.
      * intros [? | [? | (g & Hg & Hopen)]]; [done|done|].
        exists g. split; [by apply list_elem_of_further|done].
      * intros (g & [-> | Hg]%elem_of_cons & Hopen); [congruence|].
        right. right. eauto.
    + split; [|intros _; right; apply list_elem_of_here].
      intros _. exists f. split; [apply list_elem_of_here|done].
Qed.

Lemma list_downloads_ext fs1 fs2 files :
  (∀ p, fs_open fs1 p = fs_open fs2 p) →
  list_downloads fs1 files = list_downloads fs2 files.
Proof.
  intros Hopen. induction files as [|f files IH]; [done|].
  by rewrite !list_downloads_cons, Hopen, IH.
Qed.

(** The page when the folder is there and can be listed. *)
Lemma literature_page_listed fs files :
  fs_exists fs folder_path = true →
  fs_listdir fs folder_path = Some files →
  ∃ head, (Lit_raise ∉ head) ∧ download_names head = []
    ∧ literature_page fs = head ++ list_downloads fs (sorted files).
Proof.
  intros Hex Hls. unfold literature_page. rewrite Hex, Hls. simpl negb. cbv iota.
  destruct files as [|f files].
  - eexists. split_and!; [| |by rewrite app_nil_r]; [|reflexivity].
    rewrite !not_elem_of_app, !not_elem_of_cons. split_and!; try done.
    all: apply not_elem_of_nil.
  - eexists. split_and!; [| |reflexivity]; [|reflexivity].
    rewrite !not_elem_of_cons. split_and!; try done. apply not_elem_of_nil.
Qed.

End literature.

(** X12. The literature page does not depend on the order in which
    [os.listdir] gives the entries of the folder: two listings of the same
    entries give the same page, since the loop runs over [sorted(files)]. *)
Theorem literature_page_listing_order (exists_ : string → bool)
    (open_ : string → bool) (files1 files2 : list string) :
  files1 ≡ₚ files2 →
  literature_page {| fs_exists := exists_; fs_listdir := λ _, Some files1;
                     fs_open := open_ |}
  = literature_page {| fs_exists := exists_; fs_listdir := λ _, Some files2;
                       fs_open := open_ |}.
Proof.
  intros Hp. unfold literature_page. cbn [fs_exists fs_listdir fs_open].
  f_equal. destruct (negb _); [done|].
  destruct files1 as [|f1 files1], files2 as [|f2 files2]; try done.
  - by apply Permutation_nil_cons in Hp.
  - symmetry in Hp. by apply Permutation_nil_cons in Hp.
  - rewrite (sorted_perm _ _ Hp). by apply list_downloads_ext.
Qed.

Lemma literature_page_listing_order_witness :
  ["b.pdf"; "a.pdf"] ≡ₚ ["a.pdf"; "b.pdf"]
  ∧ download_names
      (literature_page {| fs_exists := λ _, true;
                          fs_listdir := λ _, Some ["b.pdf"; "a.pdf"];
                          fs_open := λ _, true |})
    = ["a.pdf"; "b.pdf"].
Proof.
  assert (Hp : ["b.pdf"; "a.pdf"] ≡ₚ ["a.pdf"; "b.pdf"]) by apply perm_swap.
  split; [exact Hp|].
  rewrite (literature_page_listing_order (λ _, true) (λ _, true) _ _ Hp).
  vm_compute. reflexivity.
Defined.

(** X13. When the folder exists and is listed, the page has one download
    button per entry, in ascending order of the names, up to the first entry
    that [open] refuses: the names of the buttons are a prefix of the sorted
    listing, all of it when every entry opens, and the run ends in an
    exception exactly when some entry does not open. *)
Theorem literature_page_buttons (fs : filesystem) (files : list string) :
  fs_exists fs folder_path = true →
  fs_listdir fs folder_path = Some files →
  download_names (literature_page fs) `prefix_of` sorted files
  ∧ (Lit_raise ∈ literature_page fs
     ↔ ∃ f, f ∈ files ∧ fs_open fs (os_path_join folder_path f) = false)
  ∧ ((∀ f, f ∈ files → fs_open fs (os_path_join folder_path f) = true)
     → download_names (literature_page fs) = sorted files).
Proof.
  intros Hex Hls.
  destruct (literature_page_listed fs files Hex Hls) as (hd & Hr & Hn & ->).
  assert (Hnames : ∀ es, download_names (hd ++ es) = download_names es).
  { intros es. unfold download_names in *. by rewrite bind_app, Hn. }
  rewrite Hnames. split_and!.
  - apply list_downloads_names.
  - rewrite elem_of_app, list_downloads_raise. split.
    + intros [? | (f & Hf & Hopen)]; [done|].
      exists f. split; [|done]. by rewrite <- (sorted_Permutation files).
    + intros (f & Hf & Hopen). right. exists f. split; [|done].
      by rewrite sorted_Permutation.
  - intros Hopen. apply list_downloads_all. intros f Hf. apply Hopen.
    by rewrite <- (sorted_Permutation files).
Qed.

Lemma literature_page_buttons_witness :
  download_names
    (literature_page {| fs_exists := λ _, true;
                        fs_listdir := λ _, Some ["c.pdf"; "a.pdf"; "b"];
                        fs_open := λ p, negb (str_endswith "/b" p) |})
  `prefix_of` sorted ["c.pdf"; "a.pdf"; "b"].
Proof.
  apply (literature_page_buttons
           {| fs_exists := λ _, true;
              fs_listdir := λ _, Some ["c.pdf"; "a.pdf"; "b"];
              fs_open := λ p, negb (str_endswith "/b" p) |}
           ["c.pdf"; "a.pdf"; "b"]); reflexivity.
Defined.

Example literature_page_stops_at_directory :
  literature_page {| fs_exists := λ _, true;
                     fs_listdir := λ _, Some ["c.pdf"; "a.pdf"; "b"];
                     fs_open := λ p, negb (str_endswith "/b" p) |}
  = [Lit_title "📚 Literature Dataset Viewer";
     Lit_markdown "Below are the files used to synthesize research behind this tool.";
     Lit_markdown "**📄 a.pdf**";
     Lit_download_button "Download a.pdf" "Literature Dataset/a.pdf" "a.pdf";
     Lit_markdown "**📄 b**";
     Lit_raise].
Proof. vm_compute. reflexivity. Qed.
